(** * patchenv: a shallow embedding of [patchenv.go] and its properties

    The Go package has one public function, [Patch], which reads the
    [PATCH_ENV_COMMAND] variable, runs its value as a command, and applies
    each [KEY=value] line of the command's standard output to the
    environment of the running process.

    Go strings are byte sequences; they are modelled by [string].  The
    process environment is a finite map from names to values.  Everything
    the package does to the outside world (launching the command, writing
    to the standard streams, logging) is recorded in a chronological list
    of events carried by the [World]. *)

From Stdlib Require Import Ascii NArith.
From stdpp Require Import base option list gmap strings.
From Equations.Prop Require Import Equations Logic.

Set Default Proof Using "Type".

(** ** Bytes and byte strings *)

Definition newline : ascii := "010"%char.
Definition cr : ascii := "013"%char.
Definition equals : ascii := "="%char.
Definition nul : ascii := "000"%char.
Definition dquote : ascii := "034"%char.

(** [contains c s]: byte [c] occurs in [s] (Go: [strings.IndexByte(s, c) >= 0]). *)
Fixpoint contains (c : ascii) (s : string) : bool :=
  match s with
  | EmptyString => false
  | String a s' => if Ascii.eqb a c then true else contains c s'
  end.

(** [cut c s] splits [s] around the first occurrence of [c]
    (Go: [i := IndexByte(s, c)], then [s[:i]] and [s[i+1:]]). *)
Fixpoint cut (c : ascii) (s : string) : option (string * string) :=
  match s with
  | EmptyString => None
  | String a s' =>
      if Ascii.eqb a c then Some (EmptyString, s')
      else match cut c s' with
           | Some (before, after) => Some (String a before, after)
           | None => None
           end
  end.

(** [strings.SplitN(s, sep, n)] for a one-byte separator and [n >= 0]:
    at most [n] pieces, the last one holding the unsplit remainder. *)
Fixpoint strings_SplitN (s : string) (sep : ascii) (n : nat) : list string :=
  match n with
  | 0 => []
  | S n' =>
      match n' with
      | 0 => [s]
      | S _ =>
          match cut sep s with
          | None => [s]
          | Some (before, after) => before :: strings_SplitN after sep n'
          end
      end
  end.

(** ** The process and its surroundings *)

(** [exec.Cmd], as far as [exec.Command] fills it in. *)
Record Cmd : Type := mkCmd {
  Path : string;
  Args : list string
}.

(** [exec.Command(name, arg...)]: the argument vector is the command name
    followed by the given arguments.  (Resolving [name] along [PATH] is
    left to the launch itself, see [os_exec] below.) *)
Definition exec_Command (name : string) (arg : list string) : Cmd :=
  {| Path := name; Args := name :: arg |}.

(** What [cmd.Run()] leaves behind: the bytes captured from the child's
    standard output and standard error, and the error [Run] returns --
    [None] when the child started and exited with status zero. *)
Record ProcResult : Type := mkProcResult {
  proc_stdout : string;
  proc_stderr : string;
  proc_err : option string
}.

Inductive Event : Type :=
| EvRun (c : Cmd)          (* cmd.Run() *)
| EvStdout (b : string)    (* os.Stdout.Write *)
| EvStderr (b : string)    (* os.Stderr.Write *)
| EvLog (msg : string).    (* log.Printf *)

Record World : Type := mkWorld {
  environ : gmap string string;
  events : list Event
}.

(** Go's [error]: [nil] is [None], otherwise the text of [err.Error()]. *)
Definition error : Type := option string.

(** A state monad over the world. *)
Definition IO (A : Type) : Type := World -> A * World.

Definition ret {A} (a : A) : IO A := fun w => (a, w).
Definition bind {A B} (m : IO A) (k : A -> IO B) : IO B :=
  fun w => let (a, w') := m w in k a w'.

Notation "x <- m ;; k" := (bind m (fun x => k))
  (at level 100, m at next level, right associativity).
Notation "m ;;; k" := (bind m (fun _ => k))
  (at level 100, right associativity).

Definition emit (e : Event) : IO unit :=
  fun w => (tt, {| environ := environ w; events := events w ++ [e] |}).

(** [os.Getenv]: the value, or the empty string when the variable is unset. *)
Definition os_Getenv (key : string) : IO string :=
  fun w => (default "" (environ w !! key), w).

(** [os.Setenv], as on Unix systems: it rejects (with [EINVAL]) an empty
    name, a name holding ['='] or a NUL byte, and a value holding a NUL
    byte; otherwise it adds or overwrites the entry. *)
Definition setenv_invalid (key value : string) : bool :=
  match key with
  | EmptyString => true
  | _ => contains equals key || contains nul key || contains nul value
  end.

Definition EINVAL : string := "setenv: invalid argument".

Definition os_Setenv (key value : string) : IO error :=
  fun w =>
    if setenv_invalid key value then (Some EINVAL, w)
    else (None, {| environ := <[key := value]> (environ w); events := events w |}).

(** [log.Printf]: the event holds the formatted message.  Where the
    message goes, and with which prefix and line ending, is the business of
    Go's standard logger; unless the program redirects it, that is the
    process's standard error.  A logged message is therefore kept apart
    from a direct [os.Stderr.Write]. *)
Definition log_Printf (msg : string) : IO unit := emit (EvLog msg).
Definition os_Stdout_Write (b : string) : IO unit := emit (EvStdout b).
Definition os_Stderr_Write (b : string) : IO unit := emit (EvStderr b).

(** ** [bufio.Scanner] with the default [ScanLines] split function *)

(** [bufio.MaxScanTokenSize]: the scanner's buffer never grows beyond this
    many bytes, and a line must fit in it together with its terminator. *)
Definition MaxScanTokenSize : N := 65536.

Definition fits (l : string) : bool :=
  (N.of_nat (String.length l) <? MaxScanTokenSize)%N.

(** [dropCR]: drop one trailing carriage return. *)
Fixpoint dropCR (data : string) : string :=
  match data with
  | EmptyString => EmptyString
  | String a EmptyString => if Ascii.eqb a cr then EmptyString else data
  | String a rest => String a (dropCR rest)
  end.

Definition ErrTooLong : string := "bufio.Scanner: token too long".

Record Scanner : Type := mkScanner {
  unread : string;          (* bytes of the reader not yet consumed *)
  token : string;           (* last token returned by the split function *)
  scan_err : option string  (* first non-EOF error met by the scanner *)
}.

Definition bufio_NewScanner (r : string) : Scanner :=
  {| unread := r; token := ""; scan_err := None |}.

(** [Scan] advances to the next line.  It stops at the end of the input,
    and it stops with [ErrTooLong] when the buffer is full and still holds
    no complete line. *)
Definition Scan (s : Scanner) : bool * Scanner :=
  match scan_err s with
  | Some _ => (false, s)
  | None =>
      match unread s with
      | EmptyString => (false, {| unread := ""; token := ""; scan_err := None |})
      | String _ _ =>
          match cut newline (unread s) with
          | Some (l, rest) =>
              if fits l
              then (true, {| unread := rest; token := dropCR l; scan_err := None |})
              else (false, {| unread := unread s; token := ""; scan_err := Some ErrTooLong |})
          | None =>
              if fits (unread s)
              then (true, {| unread := ""; token := dropCR (unread s); scan_err := None |})
              else (false, {| unread := unread s; token := ""; scan_err := Some ErrTooLong |})
          end
      end
  end.

Definition Text (s : Scanner) : string := token s.
Definition Err (s : Scanner) : option string := scan_err s.

(** A successful [Scan] consumes at least one byte: the termination
    argument of every loop over a scanner. *)
Ltac solve_scan_decreases H :=
  unfold Scan in H;
  destruct (scan_err _); [discriminate H|];
  match type of H with
  | context [unread ?s] =>
      assert (Hcut : forall c x b r, cut c x = Some (b, r) ->
                       String.length r < String.length x);
      [ clear; intros c x; induction x as [|a x IH]; intros b r; simpl;
        [ discriminate
        | destruct (Ascii.eqb a c);
          [ intros [= _ <-]; lia
          | destruct (cut c x) as [[b' r']|] eqn:E; [|discriminate];
            intros [= _ <-]; specialize (IH _ _ eq_refl); lia ] ]
      | destruct (unread s) as [|a u]; [discriminate H|];
        destruct (cut newline (String a u)) as [[l rest]|] eqn:Hc;
        [ destruct (fits l); [|discriminate H];
          injection H as <-; simpl; exact (Hcut _ _ _ _ Hc)
        | destruct (fits (String a u)); [|discriminate H];
          injection H as <-; simpl; lia ] ]
  end.

(** ** The package *)

Definition patchCommandVar : string := "PATCH_ENV_COMMAND".
Definition shellVar : string := "SHELL".

Section Patchenv.

(** [strconv.Quote], which [fmt] applies for the verb [%q]. *)
Variable quote : string -> string.

(** The outcome of launching a command in a given environment: the
    operating system and the command itself lie outside the package. *)
Variable os_exec : Cmd -> gmap string string -> ProcResult.

(** [cmd.Run()] with [cmd.Stdout] and [cmd.Stderr] set to fresh buffers. *)
Definition cmd_Run (cmd : Cmd) : IO ProcResult :=
  fun w => (os_exec cmd (environ w),
            {| environ := environ w; events := events w ++ [EvRun cmd] |}).

(** [runWithShell]: the captured standard output, or an error. *)
Definition runWithShell (cmdString : string) : IO (option string * error) :=
  shell <- os_Getenv shellVar ;;
  let cmd :=
    if String.eqb shell "" then exec_Command cmdString []
    else exec_Command shell ["-c"; cmdString] in
  r <- cmd_Run cmd ;;
  match proc_err r with
  | Some e =>
      os_Stdout_Write (proc_stdout r) ;;;
      os_Stderr_Write (proc_stderr r) ;;;
      ret (None, Some ("patchenv command " +:+ quote cmdString +:+
                       " failed: " +:+ quote e))
  | None => ret (Some (proc_stdout r), None)
  end.

(** The body of the [for scanner.Scan()] loop of [patchFromCommand]. *)
Definition patchLine (line : string) : IO unit :=
  let parts := strings_SplitN line equals 2 in
  if negb (Nat.eqb (length parts) 2) || String.eqb (nth 0 parts "") "" then
    log_Printf ("[WARNING] patchenv: invalid output line: " +:+ line)
  else
    err <- os_Setenv (nth 0 parts "") (nth 1 parts "") ;;
    match err with
    | Some e =>
        log_Printf ("[WARNING] patchenv: os.Setenv(" +:+ quote (nth 0 parts "") +:+
                    ", " +:+ quote (nth 1 parts "") +:+
                    ") returned error: " +:+ e)
    | None => ret tt
    end.

(** The loop itself: [for scanner.Scan() { line := scanner.Text(); ... }]. *)
Equations? scanLoop (s : Scanner) (w : World) : World
  by wf (String.length (unread s)) lt :=
  scanLoop s w with inspect (Scan s) := {
    | exist _ (true, s') Hscan => scanLoop s' (snd (patchLine (Text s') w));
    | exist _ (false, _) _ => w }.
Proof. solve_scan_decreases Hscan. Qed.

(** [patchFromCommand].  [runWithShell] returns a buffer whenever it
    returns no error (lemma [runWithShell_run] below), so the case of a nil
    buffer without an error is never reached. *)
Definition patchFromCommand (cmdString : string) : IO error :=
  r <- runWithShell cmdString ;;
  match r with
  | (_, Some e) => ret (Some e)
  | (Some outBuf, None) =>
      fun w => (None, scanLoop (bufio_NewScanner outBuf) w)
  | (None, None) => ret None
  end.

Definition Patch : IO error :=
  cmdString <- os_Getenv patchCommandVar ;;
  if String.eqb cmdString "" then ret None
  else patchFromCommand cmdString.

End Patchenv.

(** ** Vocabulary for the statements *)

(** The lines a scanner delivers, in order, and the scanner as the loop
    leaves it. *)
Equations? scanAll (s : Scanner) : list string * Scanner
  by wf (String.length (unread s)) lt :=
  scanAll s with inspect (Scan s) := {
    | exist _ (true, s') Hscan => (Text s' :: fst (scanAll s'), snd (scanAll s'));
    | exist _ (false, s') _ => ([], s') }.
Proof. all: solve_scan_decreases Hscan. Qed.

Definition scanLines (out : string) : list string :=
  fst (scanAll (bufio_NewScanner out)).

(** The loop body applied to a list of lines, one after the other. *)
Definition patchLines (quote : string -> string) (ls : list string) (w : World) : World :=
  fold_left (fun w l => snd (patchLine quote l w)) ls w.

(** The value [os.Getenv] reports for [key] in world [w]. *)
Definition getenv (w : World) (key : string) : string := fst (os_Getenv key w).

(** The command [runWithShell] builds in world [w]. *)
Definition launched (w : World) (cmdString : string) : Cmd :=
  if String.eqb (getenv w shellVar) "" then exec_Command cmdString []
  else exec_Command (getenv w shellVar) ["-c"; cmdString].

(** The world once [cmd.Run()] has returned. *)
Definition ran (w : World) (cmd : Cmd) : World :=
  {| environ := environ w; events := events w ++ [EvRun cmd] |}.

(** A line the loop rejects: no ['='], or nothing before the first ['=']. *)
Definition malformed (line : string) : bool :=
  match cut equals line with
  | None => true
  | Some (key, _) => String.eqb key ""
  end.

Definition invalidLineWarning (line : string) : string :=
  "[WARNING] patchenv: invalid output line: " +:+ line.

Definition setenvWarning (quote : string -> string) (key value e : string) : string :=
  "[WARNING] patchenv: os.Setenv(" +:+ quote key +:+ ", " +:+ quote value +:+
  ") returned error: " +:+ e.

Definition logged (w : World) (msg : string) : World :=
  {| environ := environ w; events := events w ++ [EvLog msg] |}.

Definition is_log (e : Event) : Prop :=
  match e with EvLog _ => True | _ => False end.

Definition failureMessage (quote : string -> string) (cmdString e : string) : string :=
  "patchenv command " +:+ quote cmdString +:+ " failed: " +:+ quote e.

(** In world [w] the control variable holds a command, and that command,
    launched the way [runWithShell] launches it, exits with status zero
    after writing [out] to its standard output. *)
Definition succeeds (os_exec : Cmd -> gmap string string -> ProcResult)
    (w : World) (out : string) : Prop :=
  getenv w patchCommandVar <> "" /\
  proc_err (os_exec (launched w (getenv w patchCommandVar)) (environ w)) = None /\
  proc_stdout (os_exec (launched w (getenv w patchCommandVar)) (environ w)) = out.

(** The world in which the loop starts: the command has been run. *)
Definition started (w : World) : World :=
  ran w (launched w (getenv w patchCommandVar)).

(** [unlines ls]: every line of [ls] followed by a newline. *)
Fixpoint unlines (ls : list string) : string :=
  match ls with
  | [] => ""
  | l :: ls' => l +:+ String newline (unlines ls')
  end.

(** The text up to the first newline of [s] (all of [s] if it has none). *)
Definition firstLine (s : string) : string :=
  match cut newline s with
  | Some (l, _) => l
  | None => s
  end.

(** The variable a line names: the text before its first ['='], if any. *)
Definition lineKey (line : string) : option string :=
  match cut equals line with
  | Some (key, _) => Some key
  | None => None
  end.

(** [n] copies of the byte [c]. *)
Fixpoint bytes (n : nat) (c : ascii) : string :=
  match n with
  | 0 => EmptyString
  | S n' => String c (bytes n' c)
  end.

(** The reading of the specification for a call without [SHELL]: the
    command text split at blanks into a program name and its arguments.
    This follows the specification's words, not the source. *)
Fixpoint spec_split (s cur : string) : list string :=
  match s with
  | EmptyString => if String.eqb cur "" then [] else [cur]
  | String a s' =>
      if Ascii.is_space a
      then (if String.eqb cur "" then spec_split s' "" else cur :: spec_split s' "")
      else spec_split s' (cur +:+ String a "")
  end.

Definition spec_argv (cmdString : string) : list string := spec_split cmdString "".

(** ** Sample surroundings, for the examples *)

(** [strconv.Quote] on printable ASCII text without quotes or backslashes. *)
Definition quote_ascii (s : string) : string :=
  String dquote (s +:+ String dquote "").

Definition notFound : string := "executable file not found in $PATH".

(** A machine on which exactly the listed argument vectors can be run. *)
Fixpoint exec_table (tbl : list (list string * ProcResult))
    (cmd : Cmd) (env : gmap string string) : ProcResult :=
  match tbl with
  | [] => {| proc_stdout := ""; proc_stderr := ""; proc_err := Some notFound |}
  | (argv, r) :: tbl' =>
      if decide (Args cmd = argv) then r else exec_table tbl' cmd env
  end.

Definition exits0 (out : string) : ProcResult :=
  {| proc_stdout := out; proc_stderr := ""; proc_err := None |}.

(** A command that fails after some output. *)
Definition falseExit : ProcResult :=
  {| proc_stdout := "FOO=bar"; proc_stderr := "boom"; proc_err := Some "exit status 1" |}.

(** A machine whose every command prints [out] and exits with status zero. *)
Definition exec_prints (out : string) (cmd : Cmd) (env : gmap string string) : ProcResult :=
  exits0 out.

Definition world (env : list (string * string)) : World :=
  {| environ := list_to_map env; events := [] |}.

(** ** Vocabulary for the further properties *)

(** The assignment a line makes: its key and value, when the line is well
    formed and [os.Setenv] accepts the pair. *)
Definition assignment (line : string) : option (string * string) :=
  match cut equals line with
  | Some (key, value) =>
      if String.eqb key "" || setenv_invalid key value then None
      else Some (key, value)
  | None => None
  end.

(** The value of the last line of [ls] that assigns [name], if any. *)
Fixpoint lastAssigned (ls : list string) (name : string) : option string :=
  match ls with
  | [] => None
  | l :: ls' =>
      match lastAssigned ls' name with
      | Some v => Some v
      | None =>
          match assignment l with
          | Some (k, v) => if String.eqb k name then Some v else None
          | None => None
          end
      end
  end.

(** The names assigned by the lines of [ls], in order. *)
Definition assignedKeys (ls : list string) : list string :=
  omap (fun l => fst <$> assignment l) ls.

(** The warning a line causes, if any. *)
Definition lineWarning (quote : string -> string) (line : string) : option Event :=
  match cut equals line with
  | Some (key, value) =>
      if String.eqb key "" then Some (EvLog (invalidLineWarning line))
      else if setenv_invalid key value
           then Some (EvLog (setenvWarning quote key value EINVAL))
           else None
  | None => Some (EvLog (invalidLineWarning line))
  end.

(** The lines a call of [Patch] in world [w] runs its loop body on: none
    without a command or after a failed command. *)
Definition appliedLines (os_exec : Cmd -> gmap string string -> ProcResult)
    (w : World) : list string :=
  if String.eqb (getenv w patchCommandVar) "" then []
  else match proc_err (os_exec (launched w (getenv w patchCommandVar)) (environ w)) with
       | Some _ => []
       | None =>
           scanLines
             (proc_stdout (os_exec (launched w (getenv w patchCommandVar)) (environ w)))
       end.

(** A line with a carriage return appended, as before a CR LF terminator. *)
Definition withCR (l : string) : string := l +:+ String cr "".

(** The number of launches among a list of events. *)
Fixpoint runs (es : list Event) : nat :=
  match es with
  | [] => 0
  | EvRun _ :: es' => S (runs es')
  | _ :: es' => runs es'
  end.

(** ** Byte strings: cutting and splitting *)

Lemma append_cons a (s t : string) : String a s +:+ t = String a (s +:+ t).
Proof. reflexivity. Qed.

Lemma append_nil (t : string) : "" +:+ t = t.
Proof. reflexivity. Qed.

Lemma contains_app c (s t : string) :
  contains c (s +:+ t) = contains c s || contains c t.
Proof.
  induction s as [|a s IH]; [reflexivity|].
  rewrite append_cons. simpl. destruct (Ascii.eqb a c); [reflexivity|exact IH].
Qed.

Lemma cut_app c (before after : string) :
  contains c before = false ->
  cut c (before +:+ String c after) = Some (before, after).
Proof.
  induction before as [|a s IH]; intros H.
  - rewrite append_nil. simpl. rewrite Ascii.eqb_refl. reflexivity.
  - rewrite append_cons. simpl in *. destruct (Ascii.eqb a c); [discriminate|].
    rewrite (IH H). reflexivity.
Qed.

Lemma cut_Some c (s before after : string) :
  cut c s = Some (before, after) ->
  s = before +:+ String c after /\ contains c before = false.
Proof.
  revert before; induction s as [|a s IH]; intros before; simpl; [discriminate|].
  destruct (Ascii.eqb a c) eqn:E.
  - apply Ascii.eqb_eq in E as ->. intros [= <- <-]. split; reflexivity.
  - destruct (cut c s) as [[b r]|]; [|discriminate].
    intros [= <- <-]. destruct (IH b eq_refl) as [-> Hb].
    split; [reflexivity|]. simpl. rewrite E. exact Hb.
Qed.

Lemma cut_None c (s : string) : cut c s = None <-> contains c s = false.
Proof.
  induction s as [|a s IH]; simpl; [tauto|].
  destruct (Ascii.eqb a c); [split; discriminate|].
  destruct (cut c s) as [[b r]|].
  - split; [discriminate|]. intros H. apply IH in H. discriminate.
  - split; [intros _; apply IH; reflexivity | reflexivity].
Qed.

Lemma SplitN_2_cut (line : string) :
  strings_SplitN line equals 2 =
    match cut equals line with
    | Some (key, value) => [key; value]
    | None => [line]
    end.
Proof. simpl. destruct (cut equals line) as [[k v]|]; reflexivity. Qed.

Lemma SplitN_2_pair (key value : string) :
  contains equals key = false ->
  strings_SplitN (key +:+ String equals value) equals 2 = [key; value].
Proof. intros H. rewrite SplitN_2_cut, (cut_app _ _ _ H). reflexivity. Qed.

Lemma eqb_empty_false (s : string) : s <> "" -> String.eqb s "" = false.
Proof. intros H. apply String.eqb_neq. exact H. Qed.

(** ** One line *)

Section Line.
Variable quote : string -> string.

(** What the loop body does, by cases on the shape of the line. *)
Lemma patchLine_malformed line w :
  malformed line = true ->
  patchLine quote line w = (tt, logged w (invalidLineWarning line)).
Proof.
  unfold malformed, patchLine. rewrite SplitN_2_cut.
  destruct (cut equals line) as [[k v]|]; simpl.
  - intros ->. reflexivity.
  - reflexivity.
Qed.

Lemma patchLine_wellformed line w key value :
  cut equals line = Some (key, value) -> key <> "" ->
  patchLine quote line w =
    if setenv_invalid key value
    then (tt, logged w (setenvWarning quote key value EINVAL))
    else (tt, {| environ := <[key := value]> (environ w); events := events w |}).
Proof.
  intros Hc Hk. unfold patchLine. rewrite SplitN_2_cut, Hc. simpl.
  rewrite (eqb_empty_false _ Hk). simpl.
  unfold bind, os_Setenv. destruct (setenv_invalid key value); reflexivity.
Qed.

Lemma patchLine_assign key value w :
  key <> "" -> contains equals key = false ->
  patchLine quote (key +:+ String equals value) w =
    if setenv_invalid key value
    then (tt, logged w (setenvWarning quote key value EINVAL))
    else (tt, {| environ := <[key := value]> (environ w); events := events w |}).
Proof.
  intros Hk He. apply patchLine_wellformed; [apply cut_app; exact He | exact Hk].
Qed.

Lemma malformed_false line :
  malformed line = false ->
  exists key value, cut equals line = Some (key, value) /\ key <> "".
Proof.
  unfold malformed. destruct (cut equals line) as [[k v]|]; [|discriminate].
  intros H. exists k, v. split; [reflexivity|]. apply String.eqb_neq. exact H.
Qed.

(** A line only ever touches the variable named before its first ['=']. *)
Lemma patchLine_environ line w :
  environ (snd (patchLine quote line w)) =
    match cut equals line with
    | Some (key, value) =>
        if String.eqb key "" || setenv_invalid key value then environ w
        else <[key := value]> (environ w)
    | None => environ w
    end.
Proof.
  destruct (malformed line) eqn:Hm.
  - rewrite (patchLine_malformed _ _ Hm). unfold malformed in Hm.
    destruct (cut equals line) as [[k v]|]; [rewrite Hm|]; reflexivity.
  - destruct (malformed_false _ Hm) as (k & v & Hc & Hk).
    rewrite (patchLine_wellformed _ _ _ _ Hc Hk), Hc, (eqb_empty_false _ Hk).
    simpl. destruct (setenv_invalid k v); reflexivity.
Qed.

(** A line adds nothing but warnings to the record of events. *)
Lemma patchLine_events line w :
  exists logs, events (snd (patchLine quote line w)) = events w ++ logs
               /\ Forall is_log logs.
Proof.
  destruct (malformed line) eqn:Hm.
  - rewrite (patchLine_malformed _ _ Hm). eexists; split; [reflexivity|].
    repeat constructor.
  - destruct (malformed_false _ Hm) as (k & v & Hc & Hk).
    rewrite (patchLine_wellformed _ _ _ _ Hc Hk).
    destruct (setenv_invalid k v).
    + eexists; split; [reflexivity|]. repeat constructor.
    + exists []. split; [simpl; rewrite app_nil_r; reflexivity | constructor].
Qed.

End Line.

(** ** The scanner and the loop *)

Lemma Scan_decreases s s' :
  Scan s = (true, s') -> String.length (unread s') < String.length (unread s).
Proof. intros Hscan. solve_scan_decreases Hscan. Qed.

Lemma scanLoop_step quote s w :
  scanLoop quote s w =
    match Scan s with
    | (true, s') => scanLoop quote s' (snd (patchLine quote (Text s') w))
    | (false, _) => w
    end.
Proof.
  simp scanLoop. unfold inspect.
  enough (H : forall p (e : Scan s = p),
             scanLoop_unfold_clause_1 quote s (exist _ p e) w =
             match p with
             | (true, s') => scanLoop quote s' (snd (patchLine quote (Text s') w))
             | (false, _) => w
             end) by apply H.
  intros [[] s'] e; simp scanLoop; reflexivity.
Qed.

Lemma scanAll_step s :
  scanAll s =
    match Scan s with
    | (true, s') => (Text s' :: fst (scanAll s'), snd (scanAll s'))
    | (false, s') => ([], s')
    end.
Proof.
  simp scanAll. unfold inspect.
  enough (H : forall p (e : Scan s = p),
             scanAll_unfold_clause_1 s (exist _ p e) =
             match p with
             | (true, s') => (Text s' :: fst (scanAll s'), snd (scanAll s'))
             | (false, s') => ([], s')
             end) by apply H.
  intros [[] s'] e; simp scanAll; reflexivity.
Qed.

(** The loop runs its body on the delivered lines, in order, and on
    nothing else. *)
Lemma scanLoop_lines quote s w :
  scanLoop quote s w = patchLines quote (fst (scanAll s)) w.
Proof.
  remember (String.length (unread s)) as n eqn:Hn.
  revert s w Hn. induction (lt_wf n) as [n _ IH]. intros s w ->.
  rewrite scanLoop_step, scanAll_step.
  destruct (Scan s) as [[] s'] eqn:Hs; [|reflexivity].
  simpl. apply (IH _ (Scan_decreases _ _ Hs)). reflexivity.
Qed.

Lemma patchLines_app quote ls1 ls2 w :
  patchLines quote (ls1 ++ ls2) w = patchLines quote ls2 (patchLines quote ls1 w).
Proof. apply fold_left_app. Qed.

Lemma patchLines_cons quote l ls w :
  patchLines quote (l :: ls) w = patchLines quote ls (snd (patchLine quote l w)).
Proof. reflexivity. Qed.

Lemma patchLines_events quote ls w :
  exists logs, events (patchLines quote ls w) = events w ++ logs
               /\ Forall is_log logs.
Proof.
  revert w; induction ls as [|l ls IH]; intros w.
  - exists []. split; [simpl; rewrite app_nil_r; reflexivity | constructor].
  - rewrite patchLines_cons.
    destruct (patchLine_events quote l w) as (logs1 & E1 & F1).
    destruct (IH (snd (patchLine quote l w))) as (logs2 & E2 & F2).
    exists (logs1 ++ logs2). split.
    + rewrite E2, E1, app_assoc. reflexivity.
    + apply Forall_app; split; assumption.
Qed.

(** The scanner on its input, line by line. *)
Lemma Scan_line l rest tok :
  contains newline l = false -> fits l = true ->
  Scan {| unread := l +:+ String newline rest; token := tok; scan_err := None |} =
    (true, {| unread := rest; token := dropCR l; scan_err := None |}).
Proof.
  intros Hl Hf. unfold Scan. simpl.
  rewrite (cut_app newline l rest Hl), Hf.
  destruct (l +:+ String newline rest) eqn:E; [|reflexivity].
  destruct l; discriminate E.
Qed.

Lemma Scan_too_long tail tok :
  fits (firstLine tail) = false ->
  Scan {| unread := tail; token := tok; scan_err := None |} =
    (false, {| unread := tail; token := ""; scan_err := Some ErrTooLong |}).
Proof.
  unfold firstLine, Scan. simpl. intros Hf.
  destruct tail as [|a t]; [discriminate Hf|].
  destruct (cut newline (String a t)) as [[l rest]|]; rewrite Hf; reflexivity.
Qed.

Lemma Scan_eof tok :
  Scan {| unread := ""; token := tok; scan_err := None |} =
    (false, {| unread := ""; token := ""; scan_err := None |}).
Proof. reflexivity. Qed.

(** The token left by an earlier call does not influence the next ones. *)
Lemma scanAll_token u tok tok' :
  scanAll {| unread := u; token := tok; scan_err := None |} =
  scanAll {| unread := u; token := tok'; scan_err := None |}.
Proof. rewrite (scanAll_step (mkScanner u tok None)), (scanAll_step (mkScanner u tok' None)). reflexivity. Qed.

Lemma append_assoc (a b c : string) : (a +:+ b) +:+ c = a +:+ (b +:+ c).
Proof. induction a as [|x a IH]; [reflexivity|]. rewrite !append_cons, IH. reflexivity. Qed.

Lemma scanAll_unlines ls tail tok :
  Forall (fun l => contains newline l = false /\ fits l = true) ls ->
  scanAll {| unread := unlines ls +:+ tail; token := tok; scan_err := None |} =
    (map dropCR ls ++ fst (scanAll (bufio_NewScanner tail)),
     snd (scanAll (bufio_NewScanner tail))).
Proof.
  intros H. revert tok. induction H as [|l ls [Hl Hf] _ IH]; intros tok.
  - simpl. rewrite append_nil, (scanAll_token tail tok "").
    unfold bufio_NewScanner. destruct (scanAll _); reflexivity.
  - simpl unlines. rewrite append_assoc, append_cons.
    rewrite scanAll_step, (Scan_line _ _ _ Hl Hf), IH. reflexivity.
Qed.

Lemma scanLines_unlines_too_long ls tail :
  Forall (fun l => contains newline l = false /\ fits l = true) ls ->
  fits (firstLine tail) = false ->
  scanAll (bufio_NewScanner (unlines ls +:+ tail)) =
    (map dropCR ls, {| unread := tail; token := ""; scan_err := Some ErrTooLong |}).
Proof.
  intros Hls Hf. unfold bufio_NewScanner at 1. rewrite (scanAll_unlines _ _ _ Hls).
  unfold bufio_NewScanner. rewrite scanAll_step, (Scan_too_long _ _ Hf). simpl.
  rewrite app_nil_r. reflexivity.
Qed.

Lemma append_empty_r (a : string) : a +:+ "" = a.
Proof. induction a as [|x a IH]; [reflexivity|]. rewrite append_cons, IH. reflexivity. Qed.

(** The limit sits between 65535 and 65536 bytes of line text. *)
Example fits_boundary :
  fits (bytes (N.to_nat 65535) "x") = true /\
  fits (bytes (N.to_nat 65536) "x") = false.
Proof. vm_compute. split; reflexivity. Qed.

Lemma scanLines_unlines ls :
  Forall (fun l => contains newline l = false /\ fits l = true) ls ->
  scanAll (bufio_NewScanner (unlines ls)) =
    (map dropCR ls, {| unread := ""; token := ""; scan_err := None |}).
Proof.
  intros Hls. rewrite <- (append_empty_r (unlines ls)).
  unfold bufio_NewScanner at 1. rewrite (scanAll_unlines _ _ _ Hls).
  unfold bufio_NewScanner. rewrite scanAll_step, Scan_eof. simpl.
  rewrite app_nil_r. reflexivity.
Qed.

(** ** The whole call *)

Section Whole.
Variable quote : string -> string.
Variable os_exec : Cmd -> gmap string string -> ProcResult.

Lemma runWithShell_run cmdString w :
  runWithShell quote os_exec cmdString w =
    let cmd := launched w cmdString in
    let r := os_exec cmd (environ w) in
    match proc_err r with
    | Some e =>
        ((None, Some (failureMessage quote cmdString e)),
         {| environ := environ w;
            events := events w ++
                        [EvRun cmd; EvStdout (proc_stdout r); EvStderr (proc_stderr r)] |})
    | None => ((Some (proc_stdout r), None), ran w cmd)
    end.
Proof.
  unfold runWithShell, bind, os_Getenv, cmd_Run, launched, getenv, os_Getenv. simpl.
  destruct (proc_err _) as [e|]; [|reflexivity].
  unfold os_Stdout_Write, os_Stderr_Write, emit, ret, failureMessage. simpl.
  rewrite <- !app_assoc. reflexivity.
Qed.

Lemma patchFromCommand_run cmdString w :
  patchFromCommand quote os_exec cmdString w =
    let cmd := launched w cmdString in
    let r := os_exec cmd (environ w) in
    match proc_err r with
    | Some e =>
        (Some (failureMessage quote cmdString e),
         {| environ := environ w;
            events := events w ++
                        [EvRun cmd; EvStdout (proc_stdout r); EvStderr (proc_stderr r)] |})
    | None => (None, patchLines quote (scanLines (proc_stdout r)) (ran w cmd))
    end.
Proof.
  unfold patchFromCommand, bind. rewrite runWithShell_run. simpl.
  destruct (proc_err _) as [e|]; [reflexivity|].
  rewrite scanLoop_lines. reflexivity.
Qed.

Lemma Patch_run w :
  Patch quote os_exec w =
    if String.eqb (getenv w patchCommandVar) "" then (None, w)
    else patchFromCommand quote os_exec (getenv w patchCommandVar) w.
Proof.
  unfold Patch, bind, getenv, os_Getenv. simpl.
  destruct (String.eqb _ ""); reflexivity.
Qed.

(** A call whose command exits with status zero runs the loop body on
    the lines of the command's output, and returns [nil]. *)
Lemma Patch_success w out :
  succeeds os_exec w out ->
  Patch quote os_exec w = (None, patchLines quote (scanLines out) (started w)).
Proof.
  intros (Hcmd & Herr & Hout). rewrite Patch_run, (eqb_empty_false _ Hcmd).
  rewrite patchFromCommand_run. simpl. rewrite Herr, Hout. reflexivity.
Qed.

(** The same, seen from one of the lines: the lines before it are
    processed, then the line itself, then the lines after it. *)
Lemma Patch_success_at w out pre line post :
  succeeds os_exec w out ->
  scanLines out = pre ++ line :: post ->
  Patch quote os_exec w =
    (None, patchLines quote post
             (snd (patchLine quote line (patchLines quote pre (started w))))).
Proof.
  intros Hs Hl. rewrite (Patch_success _ _ Hs), Hl, patchLines_app. reflexivity.
Qed.

End Whole.

(** ** What a run of lines does to the environment *)

Lemma setenv_valid key value :
  key <> "" -> contains equals key = false ->
  contains nul key = false -> contains nul value = false ->
  setenv_invalid key value = false.
Proof.
  intros Hk He Hn Hv. unfold setenv_invalid. destruct key; [contradiction|].
  rewrite He, Hn, Hv. reflexivity.
Qed.

Lemma setenv_valid_key key value :
  setenv_invalid key value = false -> key <> "" /\ contains equals key = false.
Proof.
  unfold setenv_invalid. destruct key as [|a k]; [discriminate|].
  intros H. split; [discriminate|].
  destruct (contains equals (String a k)); [discriminate H | reflexivity].
Qed.

Lemma patchLine_other quote line w name :
  lineKey line <> Some name ->
  environ (snd (patchLine quote line w)) !! name = environ w !! name.
Proof.
  rewrite patchLine_environ. unfold lineKey.
  destruct (cut equals line) as [[k v]|]; [|reflexivity].
  intros Hk. destruct (String.eqb k "" || setenv_invalid k v); [reflexivity|].
  apply lookup_insert_ne. congruence.
Qed.

Lemma patchLines_other quote ls w name :
  Forall (fun l => lineKey l <> Some name) ls ->
  environ (patchLines quote ls w) !! name = environ w !! name.
Proof.
  intros H. revert w. induction H as [|l ls Hl _ IH]; intros w; [reflexivity|].
  rewrite patchLines_cons, IH. apply patchLine_other. exact Hl.
Qed.

(** The environment a run of lines leaves depends on the environment it
    starts from only. *)
Lemma patchLines_environ_ext quote ls w1 w2 :
  environ w1 = environ w2 ->
  environ (patchLines quote ls w1) = environ (patchLines quote ls w2).
Proof.
  revert w1 w2. induction ls as [|l ls IH]; intros w1 w2 H; [exact H|].
  rewrite !patchLines_cons. apply IH. rewrite !patchLine_environ, H. reflexivity.
Qed.

Lemma malformed_shapes line :
  contains equals line = false \/ (exists rest, line = String equals rest) ->
  malformed line = true.
Proof.
  unfold malformed. intros [H | [rest ->]].
  - apply cut_None in H. rewrite H. reflexivity.
  - reflexivity.
Qed.

Lemma patchLine_assignment quote line w :
  environ (snd (patchLine quote line w)) =
    match assignment line with
    | Some (key, value) => <[key := value]> (environ w)
    | None => environ w
    end.
Proof.
  rewrite patchLine_environ. unfold assignment.
  destruct (cut equals line) as [[k v]|]; [|reflexivity].
  destruct (String.eqb k "" || setenv_invalid k v); reflexivity.
Qed.

(** The environment after a run of lines, name by name: the value of the
    last line that assigns the name, or else the binding the run started
    from. *)
Lemma patchLines_lookup quote ls w name :
  environ (patchLines quote ls w) !! name =
    match lastAssigned ls name with
    | Some v => Some v
    | None => environ w !! name
    end.
Proof.
  revert w. induction ls as [|l ls IH]; intros w; [reflexivity|].
  rewrite patchLines_cons, IH. simpl.
  destruct (lastAssigned ls name); [reflexivity|].
  rewrite patchLine_assignment.
  destruct (assignment l) as [[k v]|]; [|reflexivity].
  destruct (String.eqb k name) eqn:E.
  - apply String.eqb_eq in E as ->. apply lookup_insert_eq.
  - apply String.eqb_neq in E. apply lookup_insert_ne. exact E.
Qed.

(** ** Properties of [Patch] *)

(** The package's own example: with a shell configured, the command
    [echo FOO=bar] sets [FOO] to [bar]. *)
Example Patch_echo :
  let w := world [("PATCH_ENV_COMMAND", "echo FOO=bar"); ("SHELL", "/bin/sh")] in
  let os := exec_table [(["/bin/sh"; "-c"; "echo FOO=bar"], exits0 (unlines ["FOO=bar"]))] in
  Patch quote_ascii os w =
    (None,
     {| environ := <["FOO" := "bar"]> (environ w);
        events := [EvRun {| Path := "/bin/sh";
                            Args := ["/bin/sh"; "-c"; "echo FOO=bar"] |}] |}).
Proof. vm_compute. reflexivity. Qed.

(** C1, as the specification words it, fails: with [SHELL] unset the
    command text ["echo FOO=bar"] is not split into the program [echo] and
    the argument [FOO=bar].  The one command launched has the whole text as
    its name and as its only argument-vector entry; on a machine that can
    run [echo FOO=bar] the call therefore fails and sets nothing. *)
Lemma C1_counterexample :
  let w := world [("PATCH_ENV_COMMAND", "echo FOO=bar")] in
  let os := exec_table [(["echo"; "FOO=bar"], exits0 (unlines ["FOO=bar"]))] in
  environ w !! shellVar = None /\
  spec_argv "echo FOO=bar" = ["echo"; "FOO=bar"] /\
  Args (launched w "echo FOO=bar") <> spec_argv "echo FOO=bar" /\
  events (snd (Patch quote_ascii os w)) =
    [EvRun {| Path := "echo FOO=bar"; Args := ["echo FOO=bar"] |};
     EvStdout ""; EvStderr ""] /\
  fst (Patch quote_ascii os w) =
    Some (failureMessage quote_ascii "echo FOO=bar" notFound) /\
  environ (snd (Patch quote_ascii os w)) !! "FOO" = None.
Proof. vm_compute. repeat split; discriminate. Qed.

(** C1 (amended): when [SHELL] is unset or empty, [Patch] hands the whole
    command text, unsplit, to [exec.Command] as the program name, with no
    further arguments: the argument vector of the launched command is the
    one-element list holding the command text.  No shell is involved, and
    nothing else is launched by the call. *)
Theorem C1_no_shell_runs_whole_text quote os_exec w cmdString :
  getenv w shellVar = "" ->
  getenv w patchCommandVar = cmdString ->
  cmdString <> "" ->
  launched w cmdString = {| Path := cmdString; Args := [cmdString] |} /\
  exists rest,
    events (snd (Patch quote os_exec w)) =
      events w ++ EvRun {| Path := cmdString; Args := [cmdString] |} :: rest /\
    Forall (fun e => forall c, e <> EvRun c) rest.
Proof.
  intros Hsh Hcmd Hne.
  assert (Hl : launched w cmdString = {| Path := cmdString; Args := [cmdString] |}).
  { unfold launched. rewrite Hsh. reflexivity. }
  split; [exact Hl|].
  rewrite Patch_run, Hcmd, (eqb_empty_false _ Hne), patchFromCommand_run. simpl.
  rewrite Hl. destruct (proc_err _) as [e|].
  - eexists. split; [reflexivity|]. repeat constructor; discriminate.
  - destruct (patchLines_events quote
                (scanLines (proc_stdout (os_exec (mkCmd cmdString [cmdString]) (environ w))))
                (ran w (mkCmd cmdString [cmdString]))) as (logs & E & F).
    exists logs. split.
    + simpl. rewrite E. simpl. rewrite <- app_assoc. reflexivity.
    + eapply Forall_impl; [exact F|]. intros [c'|b|b|m] Hlog c; try discriminate. destruct Hlog.
Qed.

Lemma C1_no_shell_runs_whole_text_witness :
  let w := world [("PATCH_ENV_COMMAND", "env -0")] in
  launched w "env -0" = {| Path := "env -0"; Args := ["env -0"] |} /\
  exists rest,
    events (snd (Patch quote_ascii (exec_table []) w)) =
      events w ++ EvRun {| Path := "env -0"; Args := ["env -0"] |} :: rest /\
    Forall (fun e => forall c, e <> EvRun c) rest.
Proof.
  apply (C1_no_shell_runs_whole_text quote_ascii (exec_table [])
           (world [("PATCH_ENV_COMMAND", "env -0")]) "env -0");
    [reflexivity | reflexivity | discriminate].
Defined.

(** C2: whenever the command fails to start or exits non-zero, [Patch]
    returns an error whose text holds the quoted command text and the
    quoted underlying error; the environment is left as it was; and the
    only things that happen after the launch are the writes of the captured
    standard output to [os.Stdout] and of the captured standard error to
    [os.Stderr], in that order, each verbatim.  No line is parsed: no
    warning is logged. *)
Theorem C2_failed_command quote os_exec w cmdString e :
  getenv w patchCommandVar = cmdString ->
  cmdString <> "" ->
  proc_err (os_exec (launched w cmdString) (environ w)) = Some e ->
  Patch quote os_exec w =
    (Some ("patchenv command " +:+ quote cmdString +:+ " failed: " +:+ quote e),
     {| environ := environ w;
        events := events w ++
          [EvRun (launched w cmdString);
           EvStdout (proc_stdout (os_exec (launched w cmdString) (environ w)));
           EvStderr (proc_stderr (os_exec (launched w cmdString) (environ w)))] |}).
Proof.
  intros Hcmd Hne He.
  rewrite Patch_run, Hcmd, (eqb_empty_false _ Hne), patchFromCommand_run. simpl.
  rewrite He. reflexivity.
Qed.

Lemma C2_failed_command_witness :
  let w := world [("PATCH_ENV_COMMAND", "false"); ("SHELL", "/bin/sh")] in
  let os := exec_table [(["/bin/sh"; "-c"; "false"], falseExit)] in
  Patch quote_ascii os w =
    (Some ("patchenv command " +:+ quote_ascii "false" +:+ " failed: " +:+
           quote_ascii "exit status 1"),
     {| environ := environ w;
        events := events w ++
          [EvRun (launched w "false");
           EvStdout (proc_stdout (os (launched w "false") (environ w)));
           EvStderr (proc_stderr (os (launched w "false") (environ w)))] |}).
Proof.
  apply (C2_failed_command quote_ascii
           (exec_table [(["/bin/sh"; "-c"; "false"], falseExit)])
           (world [("PATCH_ENV_COMMAND", "false"); ("SHELL", "/bin/sh")])
           "false" "exit status 1");
    [reflexivity | discriminate | reflexivity].
Defined.

(** C3: when [PATCH_ENV_COMMAND] is unset or set to the empty string,
    [Patch] returns [nil] and the world is exactly what it was: no command
    is run, nothing is written or logged, and the environment is unchanged. *)
Theorem C3_no_command_no_effect quote os_exec w :
  environ w !! patchCommandVar = None \/ environ w !! patchCommandVar = Some "" ->
  Patch quote os_exec w = (None, w).
Proof.
  intros H. rewrite Patch_run.
  replace (getenv w patchCommandVar) with ""; [reflexivity|].
  unfold getenv, os_Getenv. simpl. destruct H as [-> | ->]; reflexivity.
Qed.

Lemma C3_no_command_no_effect_witness :
  Patch quote_ascii (exec_prints "FOO=bar") (world [("SHELL", "/bin/sh")]) =
    (None, world [("SHELL", "/bin/sh")]) /\
  Patch quote_ascii (exec_prints "FOO=bar") (world [("PATCH_ENV_COMMAND", "")]) =
    (None, world [("PATCH_ENV_COMMAND", "")]).
Proof.
  split.
  - apply (C3_no_command_no_effect quote_ascii (exec_prints "FOO=bar")
             (world [("SHELL", "/bin/sh")])). left. reflexivity.
  - apply (C3_no_command_no_effect quote_ascii (exec_prints "FOO=bar")
             (world [("PATCH_ENV_COMMAND", "")])). right. reflexivity.
Defined.

(** C4, as worded, fails: a line with an ['='] and a non-empty name before
    it does not always set the variable.  [os.Setenv] refuses a value (or a
    name) that holds a NUL byte; for such a line [Patch] only logs a
    warning, and the variable stays unset. *)
Lemma C4_counterexample :
  let w := world [("PATCH_ENV_COMMAND", "env -0"); ("SHELL", "/bin/sh")] in
  let value := String nul "" in
  let out := unlines ["A" +:+ String equals value] in
  scanLines out = ["A" +:+ String equals value] /\
  fst (Patch quote_ascii (exec_prints out) w) = None /\
  environ (snd (Patch quote_ascii (exec_prints out) w)) !! "A" <> Some value /\
  events (snd (Patch quote_ascii (exec_prints out) w)) =
    [EvRun {| Path := "/bin/sh"; Args := ["/bin/sh"; "-c"; "env -0"] |};
     EvLog (setenvWarning quote_ascii "A" value EINVAL)].
Proof. vm_compute. repeat split; discriminate. Qed.

(** C4 (amended): for every line the scanner delivers that contains an
    ['='], has a non-empty text before the first ['='], and holds no NUL
    byte, [Patch] sets the variable named by the text before the first
    ['='] to exactly the text after it: the lines before are processed,
    then the environment is updated at that name with that value and
    nothing is logged, then the lines after are processed.  The value is
    arbitrary otherwise -- empty, with spaces, quotes or further ['=']. *)
Theorem C4_line_sets_variable quote os_exec w out pre key value post :
  succeeds os_exec w out ->
  scanLines out = pre ++ (key +:+ String equals value) :: post ->
  key <> "" ->
  contains equals key = false ->
  contains nul key = false ->
  contains nul value = false ->
  Patch quote os_exec w =
    (None,
     patchLines quote post
       {| environ := <[key := value]> (environ (patchLines quote pre (started w)));
          events := events (patchLines quote pre (started w)) |}).
Proof.
  intros Hs Hl Hk He Hn Hv.
  rewrite (Patch_success_at _ _ _ _ _ _ _ Hs Hl), (patchLine_assign _ _ _ _ Hk He).
  rewrite (setenv_valid _ _ Hk He Hn Hv). reflexivity.
Qed.

Lemma C4_line_sets_variable_witness :
  let w := world [("PATCH_ENV_COMMAND", "printenv"); ("SHELL", "/bin/sh")] in
  let value := "a  b=c =" +:+ String dquote ("d" +:+ String dquote " ") in
  let out := unlines ["FOO=bar"; "HINT" +:+ String equals value; "EMPTY="] in
  Patch quote_ascii (exec_prints out) w =
    (None,
     patchLines quote_ascii ["EMPTY="]
       {| environ := <["HINT" := value]>
                       (environ (patchLines quote_ascii ["FOO=bar"] (started w)));
          events := events (patchLines quote_ascii ["FOO=bar"] (started w)) |}).
Proof.
  intros w value out.
  apply (C4_line_sets_variable quote_ascii (exec_prints out) w out
           ["FOO=bar"] "HINT" value ["EMPTY="]).
  - repeat split. discriminate.
  - vm_compute. reflexivity.
  - discriminate.
  - reflexivity.
  - reflexivity.
  - reflexivity.
Defined.

(** C5: a delivered line with no ['='], or with nothing before its first
    ['='], makes [Patch] log a warning that ends with the line verbatim and
    changes nothing else; the lines before and after it are processed as
    usual, so the environment is the one the other lines alone produce:
    every name holds the value of the last of the other lines that assigns
    it (with a pair [os.Setenv] accepts), and a name none of them assigns
    keeps the binding it had before the call; and the call returns [nil]. *)
Theorem C5_malformed_line_skipped quote os_exec w out pre line post :
  succeeds os_exec w out ->
  scanLines out = pre ++ line :: post ->
  contains equals line = false \/ (exists rest, line = String equals rest) ->
  Patch quote os_exec w =
    (None,
     patchLines quote post
       (logged (patchLines quote pre (started w))
               ("[WARNING] patchenv: invalid output line: " +:+ line))) /\
  environ (snd (Patch quote os_exec w)) =
    environ (patchLines quote (pre ++ post) (started w)) /\
  forall name,
    environ (snd (Patch quote os_exec w)) !! name =
      match lastAssigned (pre ++ post) name with
      | Some v => Some v
      | None => environ w !! name
      end.
Proof.
  intros Hs Hl Hm. apply malformed_shapes in Hm.
  rewrite (Patch_success_at _ _ _ _ _ _ _ Hs Hl), (patchLine_malformed _ _ _ Hm).
  assert (He : environ
                 (patchLines quote post
                    (logged (patchLines quote pre (started w))
                            ("[WARNING] patchenv: invalid output line: " +:+ line))) =
               environ (patchLines quote (pre ++ post) (started w))).
  { rewrite patchLines_app. apply patchLines_environ_ext. reflexivity. }
  split; [reflexivity|]. split; [exact He|].
  intros name.
  transitivity (environ (patchLines quote (pre ++ post) (started w)) !! name).
  - exact (f_equal (fun m : gmap string string => m !! name) He).
  - exact (patchLines_lookup quote (pre ++ post) (started w) name).
Qed.

Lemma C5_malformed_line_skipped_witness :
  let w := world [("PATCH_ENV_COMMAND", "printenv"); ("SHELL", "/bin/sh");
                  ("FOO", "old")] in
  let out := unlines ["FOO=bar"; "=novalue"; "BAZ=1"] in
  Patch quote_ascii (exec_prints out) w =
    (None,
     patchLines quote_ascii ["BAZ=1"]
       (logged (patchLines quote_ascii ["FOO=bar"] (started w))
               ("[WARNING] patchenv: invalid output line: " +:+ "=novalue"))) /\
  environ (snd (Patch quote_ascii (exec_prints out) w)) !! "FOO" = Some "bar" /\
  environ (snd (Patch quote_ascii (exec_prints out) w)) !! "BAZ" = Some "1" /\
  environ (snd (Patch quote_ascii (exec_prints out) w)) !! "SHELL" = Some "/bin/sh" /\
  environ (snd (Patch quote_ascii (exec_prints out) w)) !! "" = None.
Proof.
  intros w out.
  destruct (C5_malformed_line_skipped quote_ascii (exec_prints out) w out
              ["FOO=bar"] "=novalue" ["BAZ=1"]) as (HP & _ & HE).
  - repeat split. discriminate.
  - vm_compute. reflexivity.
  - right. exists "novalue". reflexivity.
  - split; [exact HP|].
    rewrite (HE "FOO"), (HE "BAZ"), (HE "SHELL"), (HE "").
    repeat split; reflexivity.
Defined.

(** C6: lines are processed in the order in which they appear.  When two
    delivered lines assign the same variable -- the later one being the
    last line of the output that names it -- the value of the later line is
    the one found in the environment once [Patch] has returned, whatever
    the earlier line assigned and whatever the variable held before. *)
Theorem C6_last_write_wins quote os_exec w out pre key v1 mid v2 post :
  succeeds os_exec w out ->
  scanLines out =
    pre ++ (key +:+ String equals v1) :: mid ++ (key +:+ String equals v2) :: post ->
  setenv_invalid key v1 = false ->
  setenv_invalid key v2 = false ->
  Forall (fun l => lineKey l <> Some key) post ->
  Patch quote os_exec w = (None, patchLines quote (scanLines out) (started w)) /\
  environ (snd (Patch quote os_exec w)) !! key = Some v2.
Proof.
  intros Hs Hl _ Hv Hpost. split; [apply Patch_success; exact Hs|].
  destruct (setenv_valid_key _ _ Hv) as [Hk He].
  rewrite app_comm_cons, app_assoc in Hl.
  rewrite (Patch_success_at _ _ _ _ _ _ _ Hs Hl), (patchLine_assign _ _ _ _ Hk He), Hv.
  simpl. rewrite (patchLines_other _ _ _ _ Hpost). simpl. apply lookup_insert_eq.
Qed.

Lemma C6_last_write_wins_witness :
  let w := world [("PATCH_ENV_COMMAND", "printenv"); ("SHELL", "/bin/sh");
                  ("FOO", "old")] in
  let out := unlines ["FOO=bar"; "X=1"; "FOO=baz"; "Y=FOO=2"] in
  Patch quote_ascii (exec_prints out) w =
    (None, patchLines quote_ascii (scanLines out) (started w)) /\
  environ (snd (Patch quote_ascii (exec_prints out) w)) !! "FOO" = Some "baz".
Proof.
  intros w out.
  apply (C6_last_write_wins quote_ascii (exec_prints out) w out
           [] "FOO" "bar" ["X=1"] "baz" ["Y=FOO=2"]).
  - repeat split. discriminate.
  - vm_compute. reflexivity.
  - reflexivity.
  - reflexivity.
  - repeat constructor. discriminate.
Defined.

(** C7: when the command exits with status zero, [Patch] returns [nil]
    after running the loop body on every delivered line.  On a line whose
    assignment [os.Setenv] refuses, the body logs a warning naming the
    quoted key, the quoted value and the error, leaves the environment
    alone, and the loop goes on with the following lines.  Malformed lines
    and refused assignments alike leave the result [nil]. *)
Theorem C7_success_despite_failures quote os_exec w out :
  succeeds os_exec w out ->
  Patch quote os_exec w = (None, patchLines quote (scanLines out) (started w)) /\
  forall key value rest w',
    key <> "" ->
    contains equals key = false ->
    setenv_invalid key value = true ->
    patchLines quote ((key +:+ String equals value) :: rest) w' =
      patchLines quote rest
        (logged w' ("[WARNING] patchenv: os.Setenv(" +:+ quote key +:+ ", " +:+
                    quote value +:+ ") returned error: " +:+ EINVAL)).
Proof.
  intros Hs. split; [apply Patch_success; exact Hs|].
  intros key value rest w' Hk He Hv.
  rewrite patchLines_cons, (patchLine_assign _ _ _ _ Hk He), Hv. reflexivity.
Qed.

Lemma C7_success_despite_failures_witness :
  let w := world [("PATCH_ENV_COMMAND", "env -0"); ("SHELL", "/bin/sh")] in
  let bad := "b" +:+ String nul "c" in
  let out := unlines ["A" +:+ String equals bad; "NOVALUE"; "FOO=bar"] in
  Patch quote_ascii (exec_prints out) w =
    (None,
     {| environ := <["FOO" := "bar"]> (environ w);
        events := [EvRun (launched w "env -0");
                   EvLog ("[WARNING] patchenv: os.Setenv(" +:+ quote_ascii "A" +:+ ", " +:+
                          quote_ascii bad +:+ ") returned error: " +:+ EINVAL);
                   EvLog "[WARNING] patchenv: invalid output line: NOVALUE"] |}).
Proof.
  intros w bad out.
  destruct (C7_success_despite_failures quote_ascii (exec_prints out) w out) as [HP HL].
  - repeat split. discriminate.
  - rewrite HP.
    replace (scanLines out) with ["A" +:+ String equals bad; "NOVALUE"; "FOO=bar"]
      by (vm_compute; reflexivity).
    rewrite (HL "A" bad ["NOVALUE"; "FOO=bar"] (started w));
      [reflexivity | discriminate | reflexivity | reflexivity].
Defined.

(** C8, as worded, fails: an empty line is not passed over.  It reaches
    the loop body like any other line, has no ['='], and is reported with
    the warning for invalid lines. *)
Lemma C8_counterexample :
  let w := world [("PATCH_ENV_COMMAND", "printenv"); ("SHELL", "/bin/sh")] in
  let out := unlines ["FOO=bar"; ""; "BAZ=1"] in
  scanLines out = ["FOO=bar"; ""; "BAZ=1"] /\
  events (snd (Patch quote_ascii (exec_prints out) w)) =
    [EvRun {| Path := "/bin/sh"; Args := ["/bin/sh"; "-c"; "printenv"] |};
     EvLog "[WARNING] patchenv: invalid output line: "] /\
  events (snd (Patch quote_ascii (exec_prints out) w)) <>
    [EvRun {| Path := "/bin/sh"; Args := ["/bin/sh"; "-c"; "printenv"] |}].
Proof. vm_compute. repeat split; discriminate. Qed.

(** C8 (amended): every delivered line is processed, the empty ones too.
    For an empty line [Patch] logs the warning for invalid lines, with
    nothing after the colon and the blank, and performs no environment
    mutation for that line. *)
Theorem C8_empty_line_warned quote os_exec w out pre post :
  succeeds os_exec w out ->
  scanLines out = pre ++ "" :: post ->
  Patch quote os_exec w =
    (None,
     patchLines quote post
       {| environ := environ (patchLines quote pre (started w));
          events := events (patchLines quote pre (started w)) ++
                      [EvLog "[WARNING] patchenv: invalid output line: "] |}).
Proof.
  intros Hs Hl.
  rewrite (Patch_success_at _ _ _ _ _ _ _ Hs Hl).
  rewrite (patchLine_malformed quote "" _ eq_refl). reflexivity.
Qed.

Lemma C8_empty_line_warned_witness :
  let w := world [("PATCH_ENV_COMMAND", "printenv"); ("SHELL", "/bin/sh")] in
  let out := unlines ["FOO=bar"; ""; "BAZ=1"] in
  Patch quote_ascii (exec_prints out) w =
    (None,
     patchLines quote_ascii ["BAZ=1"]
       {| environ := environ (patchLines quote_ascii ["FOO=bar"] (started w));
          events := events (patchLines quote_ascii ["FOO=bar"] (started w)) ++
                      [EvLog "[WARNING] patchenv: invalid output line: "] |}).
Proof.
  intros w out.
  apply (C8_empty_line_warned quote_ascii (exec_prints out) w out ["FOO=bar"] ["BAZ=1"]).
  - repeat split. discriminate.
  - vm_compute. reflexivity.
Defined.

(** C9: when the scanner fails in the middle of the output -- here because
    a line does not fit in the scanner's buffer -- [Patch] stops silently.
    The lines before the failure have been processed; nothing that follows
    is parsed or applied; the scanner holds [ErrTooLong], yet no warning
    about it is logged and the call returns [nil], exactly as if the output
    had ended before the oversized line. *)
Theorem C9_scan_error_ignored quote os_exec w ls tail :
  succeeds os_exec w (unlines ls +:+ tail) ->
  Forall (fun l => contains newline l = false /\ fits l = true) ls ->
  fits (firstLine tail) = false ->
  Err (snd (scanAll (bufio_NewScanner (unlines ls +:+ tail)))) = Some ErrTooLong /\
  scanLines (unlines ls +:+ tail) = scanLines (unlines ls) /\
  Patch quote os_exec w = (None, patchLines quote (map dropCR ls) (started w)).
Proof.
  intros Hs Hls Hf.
  assert (Hl : scanLines (unlines ls +:+ tail) = map dropCR ls).
  { unfold scanLines. rewrite (scanLines_unlines_too_long _ _ Hls Hf). reflexivity. }
  split; [|split].
  - rewrite (scanLines_unlines_too_long _ _ Hls Hf). reflexivity.
  - rewrite Hl. unfold scanLines. rewrite (scanLines_unlines _ Hls). reflexivity.
  - rewrite (Patch_success _ _ _ _ Hs), Hl. reflexivity.
Qed.

Lemma C9_scan_error_ignored_witness :
  let w := world [("PATCH_ENV_COMMAND", "printenv"); ("SHELL", "/bin/sh")] in
  let ls := ["FOO=bar"; "NOVALUE"] in
  let tail := "BIG=" +:+ bytes (N.to_nat 65532) "x" +:+ String newline "LATE=1" in
  Err (snd (scanAll (bufio_NewScanner (unlines ls +:+ tail)))) = Some ErrTooLong /\
  scanLines (unlines ls +:+ tail) = scanLines (unlines ls) /\
  Patch quote_ascii (exec_prints (unlines ls +:+ tail)) w =
    (None, patchLines quote_ascii (map dropCR ls) (started w)).
Proof.
  intros w ls tail.
  apply (C9_scan_error_ignored quote_ascii (exec_prints (unlines ls +:+ tail)) w ls tail).
  - repeat split. discriminate.
  - repeat constructor.
  - vm_compute. reflexivity.
Defined.

(** C10: keys and values are not trimmed.  For every line, the two parts
    the loop body works with are the exact text before the first ['='] and
    the exact text after it, blanks included.  The line touches no variable
    but the one named by that exact key -- so never the variable with the
    blanks removed -- and when [os.Setenv] accepts the pair, the variable
    with that exact name holds the exact value. *)
Theorem C10_no_trimming quote key value w :
  key <> "" ->
  contains equals key = false ->
  strings_SplitN (key +:+ String equals value) equals 2 = [key; value] /\
  (forall name, name <> key ->
     environ (snd (patchLine quote (key +:+ String equals value) w)) !! name =
       environ w !! name) /\
  (setenv_invalid key value = false ->
     environ (snd (patchLine quote (key +:+ String equals value) w)) !! key = Some value).
Proof.
  intros Hk He. split; [apply SplitN_2_pair; exact He|]. split.
  - intros name Hn. apply patchLine_other. unfold lineKey.
    rewrite (cut_app _ _ _ He). congruence.
  - intros Hv. rewrite (patchLine_assign _ _ _ _ Hk He), Hv. simpl.
    apply lookup_insert_eq.
Qed.

Lemma C10_no_trimming_witness :
  let w := world [("FOO", "old")] in
  let line := " FOO " +:+ String equals " bar " in
  strings_SplitN line equals 2 = [" FOO "; " bar "] /\
  environ (snd (patchLine quote_ascii line w)) !! "FOO" = Some "old" /\
  environ (snd (patchLine quote_ascii line w)) !! " FOO " = Some " bar ".
Proof.
  intros w line. subst line.
  destruct (C10_no_trimming quote_ascii " FOO " " bar " w) as (HS & HO & HK).
  - discriminate.
  - reflexivity.
  - split; [exact HS|]. split.
    + rewrite (HO "FOO"); [reflexivity | discriminate].
    + apply HK. reflexivity.
Defined.

(** ** Further properties *)

(** *** [runWithShell] *)

(** X1: when [SHELL] holds a non-empty value, the one command launched is
    that shell with the two arguments [-c] and the whole command text; the
    text is handed over as a single argument, whatever blanks or shell
    syntax it holds, and nothing else is launched. *)
Theorem X1_shell_runs_dash_c quote os_exec w cmdString :
  getenv w shellVar <> "" ->
  getenv w patchCommandVar = cmdString ->
  cmdString <> "" ->
  exists rest,
    events (snd (Patch quote os_exec w)) =
      events w ++
      EvRun {| Path := getenv w shellVar;
               Args := [getenv w shellVar; "-c"; cmdString] |} :: rest /\
    runs rest = 0.
Proof.
  intros Hsh Hcmd Hne.
  assert (Hl : launched w cmdString =
               {| Path := getenv w shellVar;
                  Args := [getenv w shellVar; "-c"; cmdString] |}).
  { unfold launched. rewrite (eqb_empty_false _ Hsh). reflexivity. }
  rewrite Patch_run, Hcmd, (eqb_empty_false _ Hne), patchFromCommand_run. simpl.
  rewrite Hl. destruct (proc_err _) as [e|].
  - eexists. split; [reflexivity|]. reflexivity.
  - match goal with |- context [patchLines quote ?ls ?w0] =>
      destruct (patchLines_events quote ls w0) as (logs & E & F) end.
    exists logs. split.
    + simpl. rewrite E. simpl. rewrite <- app_assoc. reflexivity.
    + clear E. induction F as [|[c|b|b|m] logs Hx _ IH]; simpl; try destruct Hx; auto.
Qed.

Lemma X1_shell_runs_dash_c_witness :
  let w := world [("PATCH_ENV_COMMAND", "env | grep ^AWS_"); ("SHELL", "/bin/my sh")] in
  exists rest,
    events (snd (Patch quote_ascii (exec_table []) w)) =
      events w ++
      EvRun {| Path := getenv w shellVar;
               Args := [getenv w shellVar; "-c"; "env | grep ^AWS_"] |} :: rest /\
    runs rest = 0.
Proof.
  apply (X1_shell_runs_dash_c quote_ascii (exec_table [])
           (world [("PATCH_ENV_COMMAND", "env | grep ^AWS_"); ("SHELL", "/bin/my sh")])
           "env | grep ^AWS_");
    [discriminate | reflexivity | discriminate].
Defined.

(** X2: [runWithShell] returns either a buffer or an error, never both
    and never neither; the buffer is the command's whole standard output;
    and it leaves the environment as it found it. *)
Theorem X2_runWithShell_buffer_xor_error quote os_exec cmdString w :
  ((exists out,
      fst (runWithShell quote os_exec cmdString w) = (Some out, None) /\
      proc_err (os_exec (launched w cmdString) (environ w)) = None /\
      out = proc_stdout (os_exec (launched w cmdString) (environ w)))
   \/
   (exists e,
      fst (runWithShell quote os_exec cmdString w) =
        (None, Some (failureMessage quote cmdString e)) /\
      proc_err (os_exec (launched w cmdString) (environ w)) = Some e)) /\
  environ (snd (runWithShell quote os_exec cmdString w)) = environ w.
Proof.
  rewrite runWithShell_run. simpl.
  destruct (proc_err _) as [e|] eqn:E; simpl.
  - split; [right; exists e; split; reflexivity | reflexivity].
  - split; [left; eexists; repeat split; reflexivity | reflexivity].
Qed.

(** *** [Patch]: result and events *)

(** X3: [Patch] returns an error exactly when there is a command to run
    and running it fails; the error is then the failure message built from
    the command text and the error of the run. *)
Theorem X3_error_iff_command_fails quote os_exec w :
  fst (Patch quote os_exec w) =
    if String.eqb (getenv w patchCommandVar) "" then None
    else failureMessage quote (getenv w patchCommandVar) <$>
           proc_err (os_exec (launched w (getenv w patchCommandVar)) (environ w)).
Proof.
  rewrite Patch_run. destruct (String.eqb _ ""); [reflexivity|].
  rewrite patchFromCommand_run. simpl. destruct (proc_err _); reflexivity.
Qed.

(** X4: [Patch] only ever adds to the record of events, and it launches
    a command exactly once when [PATCH_ENV_COMMAND] is non-empty and not at
    all otherwise. *)
Theorem X4_one_launch quote os_exec w :
  exists new,
    events (snd (Patch quote os_exec w)) = events w ++ new /\
    runs new = if String.eqb (getenv w patchCommandVar) "" then 0 else 1.
Proof.
  rewrite Patch_run. destruct (String.eqb _ "").
  - exists []. split; [simpl; rewrite app_nil_r|]; reflexivity.
  - rewrite patchFromCommand_run. simpl. destruct (proc_err _) as [e|].
    + eexists. split; reflexivity.
    + match goal with |- context [patchLines quote ?ls ?w0] =>
        destruct (patchLines_events quote ls w0) as (logs & E & F) end.
      exists (EvRun (launched w (getenv w patchCommandVar)) :: logs). split.
      * simpl. rewrite E. simpl. rewrite <- app_assoc. reflexivity.
      * simpl. f_equal. clear E.
        induction F as [|[c|b|b|m] logs Hx _ IH]; simpl; try destruct Hx; auto.
Qed.

(** *** [Patch]: the environment it leaves *)

Lemma patchLine_warning quote line w :
  events (snd (patchLine quote line w)) =
    events w ++ option_list (lineWarning quote line).
Proof.
  unfold lineWarning. destruct (malformed line) eqn:Hm.
  - rewrite (patchLine_malformed _ _ _ Hm). unfold malformed in Hm.
    destruct (cut equals line) as [[k v]|]; [rewrite Hm|]; reflexivity.
  - destruct (malformed_false _ Hm) as (k & v & Hc & Hk).
    rewrite (patchLine_wellformed _ _ _ _ _ Hc Hk), Hc, (eqb_empty_false _ Hk).
    destruct (setenv_invalid k v); simpl; [reflexivity|].
    rewrite app_nil_r. reflexivity.
Qed.

Lemma patchLines_warnings quote ls w :
  events (patchLines quote ls w) = events w ++ omap (lineWarning quote) ls.
Proof.
  revert w. induction ls as [|l ls IH]; intros w.
  - simpl. rewrite app_nil_r. reflexivity.
  - rewrite patchLines_cons, IH, patchLine_warning, <- app_assoc. f_equal.
    simpl. destruct (lineWarning quote l); reflexivity.
Qed.

Lemma Patch_environ quote os_exec w :
  environ (snd (Patch quote os_exec w)) =
    environ (patchLines quote (appliedLines os_exec w) w).
Proof.
  rewrite Patch_run. unfold appliedLines.
  destruct (String.eqb _ ""); [reflexivity|].
  rewrite patchFromCommand_run. simpl.
  destruct (proc_err _); [reflexivity|].
  simpl. apply patchLines_environ_ext. reflexivity.
Qed.

Lemma lastAssigned_None ls name :
  Forall (fun l => lineKey l <> Some name) ls -> lastAssigned ls name = None.
Proof.
  induction 1 as [|l ls Hl _ IH]; [reflexivity|]. simpl. rewrite IH.
  unfold assignment. unfold lineKey in Hl.
  destruct (cut equals l) as [[k v]|]; [|reflexivity].
  destruct (String.eqb k "" || setenv_invalid k v); [reflexivity|].
  destruct (String.eqb k name) eqn:E; [|reflexivity].
  apply String.eqb_eq in E. congruence.
Qed.

(** X5: for every name, the environment [Patch] leaves holds the value of
    the last line, among those the loop ran on, that assigns the name with
    a pair [os.Setenv] accepts; a name no such line assigns keeps exactly
    the binding it had, set or unset. *)
Theorem X5_final_environment quote os_exec w name :
  environ (snd (Patch quote os_exec w)) !! name =
    match lastAssigned (appliedLines os_exec w) name with
    | Some v => Some v
    | None => environ w !! name
    end.
Proof. rewrite Patch_environ. apply patchLines_lookup. Qed.

(** X6: [Patch] never removes a variable: every name that is set before
    the call is set after it, whether the call succeeds or fails. *)
Theorem X6_never_unsets quote os_exec w :
  dom (environ w) ⊆ dom (environ (snd (Patch quote os_exec w))).
Proof.
  apply elem_of_subseteq. intros name. rewrite !elem_of_dom.
  rewrite Patch_environ, patchLines_lookup.
  destruct (lastAssigned _ name); [eauto | tauto].
Qed.

(** X7: a variable that no processed line names keeps its binding: the
    call changes nothing but the variables named before the first ['='] of
    some line of the command's output. *)
Theorem X7_unnamed_untouched quote os_exec w name :
  Forall (fun l => lineKey l <> Some name) (appliedLines os_exec w) ->
  environ (snd (Patch quote os_exec w)) !! name = environ w !! name.
Proof.
  intros H. rewrite Patch_environ, patchLines_lookup, (lastAssigned_None _ _ H).
  reflexivity.
Qed.

Lemma X7_unnamed_untouched_witness :
  let w := world [("PATCH_ENV_COMMAND", "printenv"); ("SHELL", "/bin/sh");
                  ("HOME", "/home/user")] in
  let os := exec_prints (unlines ["FOO=bar"; "HOMER=HOME=x"; "NOVALUE"]) in
  environ (snd (Patch quote_ascii os w)) !! "HOME" = environ w !! "HOME".
Proof.
  intros w os.
  apply (X7_unnamed_untouched quote_ascii os w "HOME").
  vm_compute. repeat constructor; discriminate.
Defined.

(** X8: after a successful command the record of events grows by the
    launch followed by one warning for each line that is malformed or whose
    assignment is refused, in the order of the lines, and by nothing else:
    the captured standard output and standard error are not forwarded --
    the call makes no [os.Stdout.Write] and no [os.Stderr.Write] -- and the
    warnings are all that reaches the logger. *)
Theorem X8_success_events quote os_exec w out :
  succeeds os_exec w out ->
  events (snd (Patch quote os_exec w)) =
    events w ++
    EvRun (launched w (getenv w patchCommandVar)) ::
    omap (lineWarning quote) (scanLines out).
Proof.
  intros Hs. rewrite (Patch_success _ _ _ _ Hs). simpl.
  rewrite patchLines_warnings. simpl. rewrite <- app_assoc. reflexivity.
Qed.

Lemma X8_success_events_witness :
  let w := world [("PATCH_ENV_COMMAND", "printenv"); ("SHELL", "/bin/sh")] in
  let out := unlines ["FOO=bar"; "NOVALUE"; "A" +:+ String equals (String nul "");
                      "=x"; "B=1"] in
  let os := fun (c : Cmd) (e : gmap string string) =>
              {| proc_stdout := out; proc_stderr := "noise"; proc_err := None |} in
  events (snd (Patch quote_ascii os w)) =
    events w ++
    EvRun (launched w (getenv w patchCommandVar)) ::
    omap (lineWarning quote_ascii) (scanLines out).
Proof.
  intros w out os.
  apply (X8_success_events quote_ascii os w out).
  repeat split. discriminate.
Defined.

(** *** What reaches the environment *)

Lemma contains_dropCR c l : contains c l = false -> contains c (dropCR l) = false.
Proof.
  induction l as [|a l IH]; [reflexivity|]. simpl. intros H.
  destruct (Ascii.eqb a c) eqn:E; [discriminate|].
  destruct l as [|b l].
  - destruct (Ascii.eqb a cr); [reflexivity|]. simpl. rewrite E. reflexivity.
  - change (contains c (String a (dropCR (String b l))) = false).
    simpl contains at 1. rewrite E. exact (IH H).
Qed.

Lemma length_dropCR l : String.length (dropCR l) <= String.length l.
Proof.
  induction l as [|a l IH]; [reflexivity|].
  destruct l as [|b l].
  - simpl. destruct (Ascii.eqb a cr); simpl; lia.
  - change (S (String.length (dropCR (String b l))) <= S (String.length (String b l))).
    lia.
Qed.

Lemma fits_dropCR l : fits l = true -> fits (dropCR l) = true.
Proof.
  unfold fits. rewrite !N.ltb_lt. pose proof (length_dropCR l). lia.
Qed.

(** Every line the scanner delivers is free of newlines and fits the
    scanner's buffer. *)
Lemma scanAll_lines_clean s :
  Forall (fun l => contains newline l = false /\ fits l = true) (fst (scanAll s)).
Proof.
  remember (String.length (unread s)) as n eqn:Hn.
  revert s Hn. induction (lt_wf n) as [n _ IH]. intros s ->.
  rewrite scanAll_step. destruct (Scan s) as [[] s'] eqn:Hs; [|constructor].
  simpl. constructor; [|exact (IH _ (Scan_decreases _ _ Hs) s' eq_refl)].
  clear IH. unfold Scan in Hs.
  destruct (scan_err s); [discriminate|].
  destruct (unread s) as [|a u]; [discriminate|].
  destruct (cut newline (String a u)) as [[l rest]|] eqn:Hc.
  - destruct (fits l) eqn:Hf; [|discriminate]. injection Hs as <-. simpl.
    apply cut_Some in Hc as [_ Hl].
    split; [apply contains_dropCR; exact Hl | apply fits_dropCR; exact Hf].
  - destruct (fits (String a u)) eqn:Hf; [|discriminate]. injection Hs as <-.
    apply cut_None in Hc.
    split; [exact (contains_dropCR _ (String a u) Hc) | exact (fits_dropCR (String a u) Hf)].
Qed.

Lemma appliedLines_clean os_exec w :
  Forall (fun l => contains newline l = false /\ fits l = true)
         (appliedLines os_exec w).
Proof.
  unfold appliedLines. destruct (String.eqb _ ""); [constructor|].
  destruct (proc_err _); [constructor|]. apply scanAll_lines_clean.
Qed.

Lemma lastAssigned_Some ls name v :
  lastAssigned ls name = Some v ->
  exists l, In l ls /\ assignment l = Some (name, v).
Proof.
  induction ls as [|l ls IH]; [discriminate|]. simpl.
  destruct (lastAssigned ls name) as [v'|].
  - intros [= ->]. destruct (IH eq_refl) as (l' & Hin & Ha). eauto.
  - destruct (assignment l) as [[k v']|] eqn:Ha; [|discriminate].
    destruct (String.eqb k name) eqn:E; [|discriminate].
    apply String.eqb_eq in E as ->. intros [= ->]. eauto.
Qed.

Lemma assignment_Some l key value :
  assignment l = Some (key, value) ->
  l = key +:+ String equals value /\ key <> "" /\ setenv_invalid key value = false.
Proof.
  unfold assignment. destruct (cut equals l) as [[k v]|] eqn:Hc; [|discriminate].
  destruct (String.eqb k "") eqn:Ek; [discriminate|].
  destruct (setenv_invalid k v) eqn:Ev; [discriminate|].
  simpl. intros [= <- <-]. apply cut_Some in Hc as [-> _].
  apply String.eqb_neq in Ek. auto.
Qed.

(** X9: whatever binding [Patch] writes is a clean one: if after the call
    a name holds a value it did not hold before, then the name is not
    empty, name and value hold no NUL byte and no newline, the name holds
    no ['='], and name, ['='] and value together are shorter than the
    scanner's 65536-byte limit. *)
Theorem X9_written_bindings_clean quote os_exec w name v :
  environ (snd (Patch quote os_exec w)) !! name = Some v ->
  environ w !! name <> Some v ->
  name <> "" /\
  contains equals name = false /\
  contains nul name = false /\ contains nul v = false /\
  contains newline name = false /\ contains newline v = false /\
  fits (name +:+ String equals v) = true.
Proof.
  rewrite Patch_environ, patchLines_lookup.
  destruct (lastAssigned _ name) as [v'|] eqn:HL; [|congruence].
  intros [= ->] _.
  destruct (lastAssigned_Some _ _ _ HL) as (l & Hin & Ha).
  destruct (assignment_Some _ _ _ Ha) as (-> & Hk & Hv).
  pose proof (appliedLines_clean os_exec w) as Hc.
  rewrite List.Forall_forall in Hc. destruct (Hc _ Hin) as [Hnl Hf].
  rewrite contains_app in Hnl. simpl in Hnl.
  apply orb_false_elim in Hnl as [Hnk Hnv].
  unfold setenv_invalid in Hv. destruct name as [|a k]; [contradiction|].
  apply orb_false_elim in Hv as [Hv Hv3]. apply orb_false_elim in Hv as [Hv1 Hv2].
  repeat split; auto.
Qed.

Lemma X9_written_bindings_clean_witness :
  let w := world [("PATCH_ENV_COMMAND", "printenv"); ("SHELL", "/bin/sh")] in
  let os := exec_prints (unlines ["FOO=a b"; "FOO=bar"]) in
  environ (snd (Patch quote_ascii os w)) !! "FOO" = Some "bar" /\
  environ w !! "FOO" <> Some "bar" /\
  "FOO" <> "" /\
  contains equals "FOO" = false /\
  contains nul "FOO" = false /\ contains nul "bar" = false /\
  contains newline "FOO" = false /\ contains newline "bar" = false /\
  fits ("FOO" +:+ String equals "bar") = true.
Proof.
  intros w os.
  assert (H1 : environ (snd (Patch quote_ascii os w)) !! "FOO" = Some "bar")
    by (vm_compute; reflexivity).
  assert (H2 : environ w !! "FOO" <> Some "bar") by (vm_compute; discriminate).
  split; [exact H1|]. split; [exact H2|].
  exact (X9_written_bindings_clean quote_ascii os w "FOO" "bar" H1 H2).
Defined.

(** *** Line endings *)

Lemma dropCR_withCR l : dropCR (withCR l) = l.
Proof.
  unfold withCR. induction l as [|a l IH]; [reflexivity|].
  rewrite append_cons.
  destruct (l +:+ String cr "") as [|b r] eqn:E.
  - destruct l; discriminate E.
  - change (String a (dropCR (String b r)) = String a l). rewrite IH. reflexivity.
Qed.

Lemma contains_newline_withCR l :
  contains newline (withCR l) = contains newline l.
Proof. unfold withCR. rewrite contains_app. simpl. apply orb_false_r. Qed.

(** X10: output whose lines end in CR LF is processed like output whose
    lines end in LF: the loop body receives each line without its carriage
    return, so no value picks up a trailing CR. *)
Theorem X10_crlf_output quote os_exec w ls :
  succeeds os_exec w (unlines (map withCR ls)) ->
  Forall (fun l => contains newline l = false /\ fits (withCR l) = true) ls ->
  scanLines (unlines (map withCR ls)) = ls /\
  Patch quote os_exec w = (None, patchLines quote ls (started w)).
Proof.
  intros Hs Hls.
  assert (Hl : scanLines (unlines (map withCR ls)) = ls).
  { unfold scanLines. rewrite scanLines_unlines.
    - simpl. rewrite map_map. rewrite <- (map_id ls) at 2.
      apply map_ext. intros l. apply dropCR_withCR.
    - apply Forall_map. eapply Forall_impl; [exact Hls|].
      intros l [Hn Hf]. simpl. rewrite contains_newline_withCR. auto. }
  split; [exact Hl|]. rewrite (Patch_success _ _ _ _ Hs), Hl. reflexivity.
Qed.

Lemma X10_crlf_output_witness :
  let w := world [("PATCH_ENV_COMMAND", "set"); ("SHELL", "cmd")] in
  let ls := ["FOO=bar"; "HINT=a b "; ""] in
  scanLines (unlines (map withCR ls)) = ls /\
  Patch quote_ascii (exec_prints (unlines (map withCR ls))) w =
    (None, patchLines quote_ascii ls (started w)).
Proof.
  intros w ls.
  apply (X10_crlf_output quote_ascii (exec_prints (unlines (map withCR ls))) w ls).
  - repeat split. discriminate.
  - repeat constructor.
Defined.

(** X11: a last line without a line terminator is processed all the
    same: the output is treated exactly as if that line, too, had ended
    with a newline. *)
Theorem X11_unterminated_last_line quote os_exec w ls l :
  succeeds os_exec w (unlines ls +:+ l) ->
  Forall (fun l => contains newline l = false /\ fits l = true) ls ->
  l <> "" ->
  contains newline l = false ->
  fits l = true ->
  scanLines (unlines ls +:+ l) = scanLines (unlines (ls ++ [l])) /\
  Patch quote os_exec w =
    (None, patchLines quote (map dropCR (ls ++ [l])) (started w)).
Proof.
  intros Hs Hls Hne Hn Hf.
  assert (Hl : scanLines (unlines ls +:+ l) = map dropCR (ls ++ [l])).
  { unfold scanLines, bufio_NewScanner. rewrite (scanAll_unlines _ _ _ Hls). simpl.
    rewrite map_app. f_equal. unfold bufio_NewScanner.
    rewrite scanAll_step. unfold Scan. simpl.
    destruct l as [|a l]; [contradiction|].
    apply cut_None in Hn. rewrite Hn, Hf. simpl. rewrite scanAll_step. reflexivity. }
  split.
  - rewrite Hl. unfold scanLines. rewrite scanLines_unlines; [reflexivity|].
    apply Forall_app. split; [exact Hls|]. repeat constructor; assumption.
  - rewrite (Patch_success _ _ _ _ Hs), Hl. reflexivity.
Qed.

Lemma X11_unterminated_last_line_witness :
  let w := world [("PATCH_ENV_COMMAND", "printf FOO=bar"); ("SHELL", "/bin/sh")] in
  let ls := ["A=1"] in
  scanLines (unlines ls +:+ "FOO=bar") = scanLines (unlines (ls ++ ["FOO=bar"])) /\
  Patch quote_ascii (exec_prints (unlines ls +:+ "FOO=bar")) w =
    (None, patchLines quote_ascii (map dropCR (ls ++ ["FOO=bar"])) (started w)).
Proof.
  intros w ls.
  apply (X11_unterminated_last_line quote_ascii
           (exec_prints (unlines ls +:+ "FOO=bar")) w ls "FOO=bar").
  - repeat split. discriminate.
  - repeat constructor.
  - discriminate.
  - reflexivity.
  - reflexivity.
Defined.

(** *** Calls and lines composed *)

Lemma patchLines_twice quote ls w w' :
  environ w' = environ (patchLines quote ls w) ->
  environ (patchLines quote ls w') = environ (patchLines quote ls w).
Proof.
  intros H. apply map_eq. intros name.
  rewrite !patchLines_lookup, H, patchLines_lookup.
  destruct (lastAssigned ls name); reflexivity.
Qed.

(** X12: calling [Patch] a second time, when the command succeeds again
    with the same output, leaves the environment of the first call as it
    is. *)
Theorem X12_second_call_changes_nothing quote os_exec w out :
  succeeds os_exec w out ->
  succeeds os_exec (snd (Patch quote os_exec w)) out ->
  environ (snd (Patch quote os_exec (snd (Patch quote os_exec w)))) =
    environ (snd (Patch quote os_exec w)).
Proof.
  intros Hs1 Hs2. rewrite (Patch_success _ _ _ _ Hs2). simpl.
  rewrite (Patch_success _ _ _ _ Hs1) at 2. simpl.
  rewrite <- (patchLines_twice quote (scanLines out) (started w)
                (started (snd (Patch quote os_exec w)))); [reflexivity|].
  rewrite (Patch_success _ _ _ _ Hs1). reflexivity.
Qed.

Lemma X12_second_call_changes_nothing_witness :
  let w := world [("PATCH_ENV_COMMAND", "printenv"); ("SHELL", "/bin/sh");
                  ("FOO", "old")] in
  let out := unlines ["FOO=bar"; "SHELL=/bin/zsh"; "FOO=baz"; "NOVALUE"] in
  environ (snd (Patch quote_ascii (exec_prints out)
                  (snd (Patch quote_ascii (exec_prints out) w)))) =
    environ (snd (Patch quote_ascii (exec_prints out) w)).
Proof.
  intros w out.
  apply (X12_second_call_changes_nothing quote_ascii (exec_prints out) w out).
  - repeat split. discriminate.
  - repeat split. vm_compute. discriminate.
Defined.

Lemma assignedKeys_cons l ls :
  assignedKeys (l :: ls) =
    match assignment l with
    | Some (k, _) => k :: assignedKeys ls
    | None => assignedKeys ls
    end.
Proof.
  unfold assignedKeys. simpl. destruct (assignment l) as [[k v]|]; reflexivity.
Qed.

Lemma patchLines_permutation quote ls ls' w :
  ls ≡ₚ ls' ->
  NoDup (assignedKeys ls) ->
  environ (patchLines quote ls w) = environ (patchLines quote ls' w).
Proof.
  intros HP. revert w. induction HP as [|x l l' HP IH|x y l|l l' l'' HP1 IH1 HP2 IH2];
    intros w Hnd.
  - reflexivity.
  - rewrite !patchLines_cons. apply IH.
    rewrite assignedKeys_cons in Hnd.
    destruct (assignment x) as [[k v]|]; [|exact Hnd].
    apply NoDup_cons in Hnd as [_ Hnd]. exact Hnd.
  - rewrite !patchLines_cons. apply patchLines_environ_ext.
    rewrite !patchLine_assignment.
    rewrite !assignedKeys_cons in Hnd.
    destruct (assignment y) as [[ky vy]|], (assignment x) as [[kx vx]|];
      try reflexivity.
    apply NoDup_cons in Hnd as [Hnot _].
    apply insert_insert_ne. intros ->. apply Hnot. left.
  - rewrite (IH1 w Hnd). apply IH2.
    unfold assignedKeys in *. rewrite <- HP1. exact Hnd.
Qed.

(** X13: when no variable is assigned by more than one line, the order
    of the lines does not matter: two successful commands whose outputs
    hold the same lines in different orders leave the same environment. *)
Theorem X13_order_irrelevant_for_distinct_keys quote os_exec os_exec' w out out' :
  succeeds os_exec w out ->
  succeeds os_exec' w out' ->
  scanLines out ≡ₚ scanLines out' ->
  NoDup (assignedKeys (scanLines out)) ->
  environ (snd (Patch quote os_exec w)) = environ (snd (Patch quote os_exec' w)).
Proof.
  intros Hs Hs' HP Hnd.
  rewrite (Patch_success _ _ _ _ Hs), (Patch_success _ _ _ _ Hs'). simpl.
  apply patchLines_permutation; assumption.
Qed.

Lemma X13_order_irrelevant_for_distinct_keys_witness :
  let w := world [("PATCH_ENV_COMMAND", "printenv"); ("SHELL", "/bin/sh")] in
  let out := unlines ["FOO=bar"; "NOVALUE"; "BAZ=1"] in
  let out' := unlines ["BAZ=1"; "FOO=bar"; "NOVALUE"] in
  environ (snd (Patch quote_ascii (exec_prints out) w)) =
    environ (snd (Patch quote_ascii (exec_prints out') w)).
Proof.
  intros w out out'.
  apply (X13_order_irrelevant_for_distinct_keys quote_ascii
           (exec_prints out) (exec_prints out') w out out').
  - repeat split. discriminate.
  - repeat split. discriminate.
  - replace (scanLines out) with ["FOO=bar"; "NOVALUE"; "BAZ=1"]
      by (vm_compute; reflexivity).
    replace (scanLines out') with ["BAZ=1"; "FOO=bar"; "NOVALUE"]
      by (vm_compute; reflexivity).
    rewrite (Permutation_cons_append ["FOO=bar"; "NOVALUE"] "BAZ=1"). reflexivity.
  - replace (scanLines out) with ["FOO=bar"; "NOVALUE"; "BAZ=1"]
      by (vm_compute; reflexivity).
    apply (bool_decide_unpack _). vm_compute. exact I.
Defined.
